(** * SafeRoute crime-risk scoring engine: a shallow embedding in Rocq

    The scoring primitives, the monthly aggregation fold, the route
    segmentation and the route scorer are transcribed from the Python
    listings of the scoring document, the risk-class helpers from the
    frontend pages.  Python floats are modelled as real numbers, Python
    strings as [string], dictionaries that are iterated as association
    lists. *)

From Stdlib Require Import Reals Lra Lia List String ZArith Bool.
Import ListNotations.
Open Scope R_scope.

(** ** Scoring primitives *)

(** [RISK_THRESHOLDS] *)
Definition th_very_low : R := 5.
Definition th_low : R := 20.
Definition th_moderate : R := 50.
Definition th_high : R := 100.
Definition th_very_high : R := 200.

(** [calculate_risk_score(weighted_count)]: the branches in source order;
    [==] and [<] on floats are decided with [Req_dec_T] and [Rlt_dec]. *)
Definition calculate_risk_score (weighted_count : R) : R :=
  if Req_dec_T weighted_count 0 then 0
  else if Rlt_dec weighted_count th_very_low then
    0.2 * weighted_count / th_very_low
  else if Rlt_dec weighted_count th_low then
    let progress := (weighted_count - 5.0) / (20.0 - 5.0) in
    0.2 + 0.2 * progress
  else if Rlt_dec weighted_count th_moderate then
    let progress := (weighted_count - 20.0) / (50.0 - 20.0) in
    0.4 + 0.2 * progress
  else if Rlt_dec weighted_count th_high then
    let progress := (weighted_count - 50.0) / (100.0 - 50.0) in
    0.6 + 0.2 * progress
  else if Rlt_dec weighted_count th_very_high then
    let progress := (weighted_count - 100.0) / (200.0 - 100.0) in
    0.8 + 0.15 * progress
  else
    let excess := Rmin (weighted_count - 200.0) 200.0 in
    0.95 + 0.05 * (excess / 200.0).

(** The risk table as the specification words it (section 4.1), to be
    compared with [calculate_risk_score]. *)
Definition risk_table_spec (w : R) : R :=
  if Req_dec_T w 0 then 0
  else if Rlt_dec w 5 then 0.2 * w / 5
  else if Rlt_dec w 20 then 0.2 + 0.2 * (w - 5) / 15
  else if Rlt_dec w 50 then 0.4 + 0.2 * (w - 20) / 30
  else if Rlt_dec w 100 then 0.6 + 0.2 * (w - 50) / 50
  else if Rlt_dec w 200 then 0.8 + 0.15 * (w - 100) / 100
  else 0.95 + 0.05 * Rmin (w - 200) 200 / 200.

(** [RECENCY_WEIGHTS] of [get_recency_weight], key by key. *)
Definition RECENCY_WEIGHTS : list (Z * R) :=
  [(0%Z, 1.00); (1%Z, 0.95); (2%Z, 0.90); (3%Z, 0.85); (4%Z, 0.75);
   (5%Z, 0.70); (6%Z, 0.65); (7%Z, 0.60); (8%Z, 0.55); (9%Z, 0.50);
   (10%Z, 0.45); (11%Z, 0.40); (12%Z, 0.35)].

(** Python's [dict.get(key, default)] on an association list. *)
Fixpoint dict_get {V : Type} (d : list (Z * V)) (k : Z) (default : V) : V :=
  match d with
  | [] => default
  | (k', v) :: d' => if Z.eqb k k' then v else dict_get d' k default
  end.

(** [get_recency_weight(months_ago)] *)
Definition get_recency_weight (months_ago : Z) : R :=
  dict_get RECENCY_WEIGHTS months_ago 0.30.

(** The recency table as the specification words it, on months-ago
    [k >= 0]. *)
Definition recency_table_spec (k : nat) : R :=
  match k with
  | 0 => 1.00 | 1 => 0.95 | 2 => 0.90 | 3 => 0.85 | 4 => 0.75
  | 5 => 0.70 | 6 => 0.65 | 7 => 0.60 | 8 => 0.55 | 9 => 0.50
  | 10 => 0.45 | 11 => 0.40 | 12 => 0.35
  | _ => 0.30
  end.

(** ** Data model *)

(** A WGS84 coordinate pair [(lng, lat)] as shapely stores it. *)
Definition point : Type := (R * R)%type.

(** A year-month, [(year, month)]. *)
Definition year_month : Type := (Z * Z)%type.

(** [SafetyCell]: [stats] is the category histogram, a JSON object whose
    items are iterated in insertion order. *)
Record SafetyCell := mkSafetyCell {
  cell_id : string;
  h3_index : string;
  month : year_month;
  crime_count_total : nat;
  crime_count_weighted : R;
  stats : list (string * nat)
}.

(** A crime incident as the aggregation loop reads it. *)
Record Incident := mkIncident {
  latitude : R;
  longitude : R;
  category : string
}.

(** [RouteSegment] *)
Record RouteSegment := mkRouteSegment {
  segment_index : nat;
  start_point : point;
  end_point : point;
  seg_risk_score : R;
  cell_count : nat
}.

(** [stats[category] += 1] on a [defaultdict(int)]: an existing key is
    incremented in place, a new key is appended with count 1. *)
Fixpoint stats_incr (cat : string) (s : list (string * nat)) : list (string * nat) :=
  match s with
  | [] => [(cat, 1%nat)]
  | (c, n) :: s' =>
      if String.eqb c cat then (c, S n) :: s' else (c, n) :: stats_incr cat s'
  end.

(** [sum(stats.values())] *)
Fixpoint stats_total (s : list (string * nat)) : nat :=
  match s with
  | [] => 0%nat
  | (_, n) :: s' => (n + stats_total s')%nat
  end.

(** Python truthiness of an optional string ([if time_of_day:]). *)
Definition py_truthy (o : option string) : option string :=
  match o with
  | Some t => if String.eqb t EmptyString then None else Some t
  | None => None
  end.

Section Scoring.

(** The category tables: the harm weight of a category and the
    [CRIME_TIME_WEIGHTS[category][time_of_day]] multiplier. *)
Variable harm_weight : string -> R.
Variable CRIME_TIME_WEIGHTS : string -> string -> R.
(** [calculate_months_ago(cell.month, current_month)] *)
Variable calculate_months_ago : year_month -> year_month -> Z.
(** [h3.latlng_to_cell(latitude, longitude, resolution=10)] *)
Variable latlng_to_cell : R -> R -> string.

(** [Σ harm_weight(c) · stats[c]] *)
Fixpoint stats_harm (s : list (string * nat)) : R :=
  match s with
  | [] => 0
  | (c, n) :: s' => INR n * harm_weight c + stats_harm s'
  end.

(** One step of the monthly aggregation fold on the incident's cell:
    [crime_count_total += 1], [crime_count_weighted += harm_weight],
    [stats[category] += 1]. *)
Definition fold_incident (c : SafetyCell) (cat : string) : SafetyCell :=
  {| cell_id := cell_id c;
     h3_index := h3_index c;
     month := month c;
     crime_count_total := S (crime_count_total c);
     crime_count_weighted := crime_count_weighted c + harm_weight cat;
     stats := stats_incr cat (stats c) |}.

(** A fresh cell of the [cells] default dictionary. *)
Definition empty_cell (cid h3 : string) (m : year_month) : SafetyCell :=
  {| cell_id := cid; h3_index := h3; month := m;
     crime_count_total := 0; crime_count_weighted := 0; stats := [] |}.

(** [cells[cell_id]] read with its default and updated by [f]. *)
Fixpoint cells_update (cid : string) (dflt : SafetyCell)
    (f : SafetyCell -> SafetyCell) (cells : list (string * SafetyCell))
    : list (string * SafetyCell) :=
  match cells with
  | [] => [(cid, f dflt)]
  | (k, c) :: r =>
      if String.eqb k cid then (k, f c) :: r
      else (k, c) :: cells_update cid dflt f r
  end.

(** The loop [for incident in month_crimes: ...] of step 1.2, with
    [cell_id = f"{h3_index}_{month.strftime('%Y%m')}"]. *)
Definition aggregate_month (m : year_month) (yyyymm : string)
    (month_crimes : list Incident) (cells : list (string * SafetyCell))
    : list (string * SafetyCell) :=
  fold_left
    (fun cells incident =>
       let h3 := latlng_to_cell (latitude incident) (longitude incident) in
       let cid := (h3 ++ "_" ++ yyyymm)%string in
       cells_update cid (empty_cell cid h3 m)
         (fun c => fold_incident c (category incident)) cells)
    month_crimes cells.

(** [sum(count * CRIME_TIME_WEIGHTS[cat][time_of_day] for cat, count in
    cell.stats.items())] *)
Fixpoint stats_time_weighted (tod : string) (s : list (string * nat)) : R :=
  match s with
  | [] => 0
  | (c, n) :: s' => INR n * CRIME_TIME_WEIGHTS c tod + stats_time_weighted tod s'
  end.

(** The body of the loop of [calculate_segment_risk] for one cell:
    [weighted_count * recency_mult]. *)
Definition cell_weighted_value (current_month : year_month)
    (time_of_day : option string) (cell : SafetyCell) : R :=
  let months_ago := calculate_months_ago (month cell) current_month in
  let recency_mult := get_recency_weight months_ago in
  let weighted_count :=
    match py_truthy time_of_day with
    | Some tod => stats_time_weighted tod (stats cell)
    | None => crime_count_weighted cell
    end in
  weighted_count * recency_mult.

(** [calculate_segment_risk(cells, current_month, time_of_day)] *)
Definition calculate_segment_risk (cells : list SafetyCell)
    (current_month : year_month) (time_of_day : option string) : R :=
  let total_weighted_risk :=
    fold_left (fun acc cell => acc + cell_weighted_value current_month time_of_day cell)
      cells 0 in
  match cells with
  | [] => 0.0
  | _ => total_weighted_risk / INR (List.length cells)
  end.

End Scoring.

(** [score_route(segments)]: the mean of the segments' risk scores is
    divided by [len(segments)]; on an empty list that division raises
    [ZeroDivisionError], modelled as [None]. *)
Definition score_route (segments : list RouteSegment) : option R :=
  match segments with
  | [] => None
  | _ =>
      let avg_segment_risk :=
        fold_left (fun acc seg => acc + seg_risk_score seg) segments 0
        / INR (List.length segments) in
      let risk_score := calculate_risk_score avg_segment_risk in
      Some ((1.0 - risk_score) * 100)
  end.

(** Hexagon scoring (safety.py): [weighted_count = agg["total_weighted"]],
    [risk_score = calculate_risk_score(weighted_count)],
    [safety_score = (1.0 - risk_score) * 100]. *)
Definition hexagon_safety_score (total_weighted : R) : R :=
  let risk_score := calculate_risk_score total_weighted in
  (1.0 - risk_score) * 100.



(** The conservation invariant I1/I2 of a cell. *)
Definition cell_conserved (harm_weight : string -> R) (c : SafetyCell) : Prop :=
  crime_count_total c = stats_total (stats c) /\
  crime_count_weighted c = stats_harm harm_weight (stats c).

(** Concrete category tables with the values the scoring document lists
    (harm weights of section 4.1; [CRIME_TIME_WEIGHTS] of step 2.2 for
    [violent-crime] and [burglary]); categories the document leaves out get
    1.0.  Used for concrete instances only. *)
Definition doc_harm_weight (c : string) : R :=
  if String.eqb c "violent-crime" then 3.0
  else if String.eqb c "burglary" then 2.0
  else if String.eqb c "robbery" then 2.5
  else if String.eqb c "theft-from-the-person" then 1.8
  else if String.eqb c "anti-social-behaviour" then 0.8
  else 1.0.

Definition doc_time_weights (c tod : string) : R :=
  if String.eqb c "violent-crime" then
    if String.eqb tod "night" then 2.5
    else if String.eqb tod "evening" then 2.0
    else if String.eqb tod "day" then 1.0
    else if String.eqb tod "morning" then 0.8 else 1.0
  else if String.eqb c "burglary" then
    if String.eqb tod "night" then 2.0
    else if String.eqb tod "evening" then 1.5
    else if String.eqb tod "day" then 1.2
    else if String.eqb tod "morning" then 1.0 else 1.0
  else 1.0.

(** Months between two year-months, for concrete instances. *)
Definition months_between (m cur : year_month) : Z :=
  ((fst cur * 12 + snd cur) - (fst m * 12 + snd m))%Z.

(** ** Route segmentation *)

(** Planar distance of shapely's [LineString.length], in coordinate
    degrees. *)
Definition planar_dist (p q : point) : R :=
  sqrt (Rsqr (fst q - fst p) + Rsqr (snd q - snd p)).

(** [LineString(pts).length] *)
Fixpoint line_length (pts : list point) : R :=
  match pts with
  | p :: ((q :: _) as rest) => planar_dist p q + line_length rest
  | _ => 0
  end.

(** The loop of [segment_route] over [route_line.coords[1:]], from a given
    [current_segment]; returns the emitted segments, in order, and the
    final value of [current_segment]. *)
Fixpoint segment_walk (max_segment_length : R) (current_segment : list point)
    (pts : list point) : list (list point) * list point :=
  match pts with
  | [] => ([], current_segment)
  | pt :: pts' =>
      let current_segment' := current_segment ++ [pt] in
      if Rge_dec (line_length current_segment') max_segment_length then
        let (segs, rest) := segment_walk max_segment_length [pt] pts' in
        (current_segment' :: segs, rest)
      else segment_walk max_segment_length current_segment' pts'
  end.

(** [segment_route(route_line, max_segment_length)]; a [LineString] has at
    least two coordinates, the empty case is never reached. *)
Definition segment_route (coords : list point) (max_segment_length : R)
    : list (list point) :=
  match coords with
  | [] => []
  | p0 :: pts => fst (segment_walk max_segment_length [p0] pts)
  end.

(** The default [max_segment_length = 0.001]. *)
Definition default_max_segment_length : R := 0.001.

(** Segments glued back at their shared endpoints, followed by the final
    [current_segment]. *)
Fixpoint glue (segs : list (list point)) (rest : list point) : list point :=
  match segs with
  | [] => rest
  | s :: segs' => removelast s ++ glue segs' rest
  end.

(** Geodesic length in meters as the specification's contract words it
    (haversine great-circle distance on the mean Earth sphere), to be
    compared with [line_length]. *)
Definition earth_radius_m : R := 6371000.

Definition deg_to_rad (d : R) : R := d * PI / 180.

Definition haversine_m (p q : point) : R :=
  let lam1 := deg_to_rad (fst p) in let phi1 := deg_to_rad (snd p) in
  let lam2 := deg_to_rad (fst q) in let phi2 := deg_to_rad (snd q) in
  let a := Rsqr (sin ((phi2 - phi1) / 2))
           + cos phi1 * cos phi2 * Rsqr (sin ((lam2 - lam1) / 2)) in
  2 * earth_radius_m * asin (sqrt a).

Fixpoint geodesic_length_m (pts : list point) : R :=
  match pts with
  | p :: ((q :: _) as rest) => haversine_m p q + geodesic_length_m rest
  | _ => 0
  end.

(** A segment as the loop emits it: its planar length reached the
    threshold, and no shorter accumulated prefix (of two vertices or more)
    did. *)
Definition emitted_at_threshold (max_len : R) (s : list point) : Prop :=
  line_length s >= max_len /\
  forall k, (2 <= k < List.length s)%nat -> line_length (firstn k s) < max_len.

(** Every accumulated prefix of [cur] of two vertices or more is below the
    threshold. *)
Definition below_threshold (max_len : R) (cur : list point) : Prop :=
  forall k, (2 <= k <= List.length cur)%nat -> line_length (firstn k cur) < max_len.

(** Consecutive segments share their boundary vertex: the last vertex of
    each segment is the first vertex of the next. *)
Fixpoint chained (segs : list (list point)) : Prop :=
  match segs with
  | s1 :: ((s2 :: _) as r) =>
      (exists pre x post, s1 = pre ++ [x] /\ s2 = x :: post) /\ chained r
  | _ => True
  end.

(** Sum of the planar lengths of a list of segments. *)
Definition total_segment_length (segs : list (list point)) : R :=
  fold_right (fun s acc => line_length s + acc) 0 segs.

(** [starts_chain start segs rest]: the segments and the final
    [current_segment] follow one another from vertex [start]: each segment
    has at least two vertices, starts where the previous piece ended, and
    the next piece starts at its last vertex. *)
Fixpoint starts_chain (start : point) (segs : list (list point)) (rest : list point)
    : Prop :=
  match segs with
  | [] => hd_error rest = Some start
  | s :: segs' =>
      exists pre x, s = pre ++ [x] /\ pre <> [] /\ hd_error pre = Some start /\
                    starts_chain x segs' rest
  end.

(** A cut of a polyline into segments and a trailing remainder in which
    every segment is cut where the accumulated planar length first reaches
    the threshold, and the remainder never reaches it. *)
Definition is_segmentation (max_len : R) (route : list point)
    (segs : list (list point)) (rest : list point) : Prop :=
  match route with
  | [] => False
  | p0 :: _ => starts_chain p0 segs rest
  end /\
  route = glue segs rest /\
  Forall (emitted_at_threshold max_len) segs /\
  below_threshold max_len rest.

(** The segments glued at their shared endpoints (the part of the polyline
    that the segments cover). *)
Fixpoint glue_all (segs : list (list point)) : list point :=
  match segs with
  | [] => []
  | [s] => s
  | s :: segs' => removelast s ++ glue_all segs'
  end.

(** ** Risk classes *)

(** [getRiskClass(score)] of the route history page. *)
Definition getRiskClass (score : R) : string :=
  if Rge_dec score 70 then "low"
  else if Rge_dec score 40 then "medium"
  else "high".

(** The heatmap style of [renderHeatmap]: green, yellow, red. *)
Definition heatmap_color (safetyScore : R) : string :=
  if Rge_dec safetyScore 75 then "#16a34a"
  else if Rge_dec safetyScore 50 then "#ca8a04"
  else "#dc2626".

(** The risk class as the specification words it. *)
Definition risk_class_spec (safety : R) : string :=
  if Rge_dec safety 75 then "low"
  else if Rge_dec safety 50 then "medium"
  else "high".

(** ** Frontend helpers *)

(** [getRiskColor(score)] of the route history page. *)
Definition getRiskColor (score : R) : string :=
  if Rge_dec score 70 then "bg-risk-low/20 text-risk-low border-risk-low"
  else if Rge_dec score 40 then "bg-risk-medium/20 text-risk-medium border-risk-medium"
  else "bg-risk-high/20 text-risk-high border-risk-high".

(** [routeColor] of [renderRoutes] for a selected route without segments. *)
Definition route_color (safety_score : R) : string :=
  if Rlt_dec safety_score 50 then "#ef4444"
  else if Rlt_dec safety_score 75 then "#eab308"
  else "#22c55e".

(** [item.safety_score_best || 0]: a missing (or falsy) score reads as 0. *)
Definition score_or_zero (o : option R) : R :=
  match o with Some x => x | None => 0 end.

(** [avgSafetyScore] of the dashboard page. *)
Definition avgSafetyScore (history : list (option R)) : R :=
  match history with
  | [] => 0
  | _ => fold_left (fun acc item => acc + score_or_zero item) history 0
         / INR (List.length history)
  end.

(** [coordinates.slice(start, end)] on an array: indices are clamped to the
    array's length. *)
Definition js_slice {A : Type} (l : list A) (start end_ : nat) : list A :=
  firstn (end_ - start) (skipn start l).

(** [Math.ceil(coordinates.length / totalSegments)] for a positive segment
    count, as a ceiling division on naturals. *)
Definition coordsPerSegment (n totalSegments : nat) : nat :=
  ((n + totalSegments - 1) / totalSegments)%nat.

(** The coordinates [renderRoutes] draws for the segment at sorted
    position [segIdx] (before the [[lng, lat] -> [lat, lng]] swap). *)
Definition segmentCoords {A : Type} (coordinates : list A)
    (totalSegments segIdx : nat) : list A :=
  let n := List.length coordinates in
  let c := coordsPerSegment n totalSegments in
  let startIdx := (segIdx * c)%nat in
  let endIdx := Nat.min ((segIdx + 1) * c) n in
  js_slice coordinates startIdx (endIdx + 1).

(** ** Theorems *)

Ltac destruct_ifs :=
  repeat match goal with
         | |- context [if ?c then _ else _] => destruct c
         end.

Lemma Rmin_cap_left (a : R) : a <= 200 -> Rmin a 200 = a.
Proof. intros; unfold Rmin; destruct (Rle_dec a 200); lra. Qed.

Lemma Rmin_cap_right (a : R) : 200 <= a -> Rmin a 200 = 200.
Proof. intros; unfold Rmin; destruct (Rle_dec a 200); lra. Qed.

(** C1: on every weighted count [w >= 0] the risk function of the code
    equals the specification's piecewise-linear table; [R 5 = 0.2],
    [R 200 = 0.95] and [R w = 1] for [w >= 400]. *)
Theorem calculate_risk_score_table :
  (forall w, 0 <= w -> calculate_risk_score w = risk_table_spec w) /\
  calculate_risk_score 5 = 0.2 /\
  calculate_risk_score 200 = 0.95 /\
  (forall w, 400 <= w -> calculate_risk_score w = 1.0).
Proof.
  unfold calculate_risk_score, risk_table_spec,
    th_very_low, th_low, th_moderate, th_high, th_very_high.
  replace 200.0 with 200 by lra.
  split; [|split; [|split]].
  - intros w _. destruct_ifs; try lra; field.
  - destruct_ifs; lra.
  - destruct_ifs; try lra. rewrite Rmin_cap_left by lra. lra.
  - intros w Hw. destruct_ifs; try lra. rewrite Rmin_cap_right by lra. lra.
Qed.

(** C6: for every months-ago [k >= 0] the recency weight is the
    specification's table value: 1.00, 0.95, ..., 0.35 for [k <= 12] and
    0.30 for every [k > 12]. *)
Theorem get_recency_weight_table (k : nat) :
  get_recency_weight (Z.of_nat k) = recency_table_spec k.
Proof.
  do 13 (destruct k as [|k]; [reflexivity|]).
  unfold get_recency_weight, RECENCY_WEIGHTS.
  assert (Hk : (13 <= Z.of_nat (13 + k))%Z) by lia.
  change (13 + k)%nat with (S (S (S (S (S (S (S (S (S (S (S (S (S k))))))))))))) in Hk.
  remember (Z.of_nat _) as z eqn:Ez; clear Ez; simpl dict_get.
  repeat (rewrite (proj2 (Z.eqb_neq _ _)) by lia). reflexivity.
Qed.

Lemma stats_total_incr cat s :
  stats_total (stats_incr cat s) = S (stats_total s).
Proof.
  induction s as [|[c n] s IH]; simpl; [reflexivity|].
  destruct (String.eqb c cat); simpl; lia.
Qed.

Lemma stats_harm_incr hw cat s :
  stats_harm hw (stats_incr cat s) = stats_harm hw s + hw cat.
Proof.
  induction s as [|[c n] s IH]; cbn [stats_incr stats_harm]; [cbn [INR]; lra|].
  destruct (String.eqb c cat) eqn:E; cbn [stats_harm].
  - apply String.eqb_eq in E; subst c. rewrite S_INR. lra.
  - rewrite IH. lra.
Qed.

Lemma stats_time_weighted_incr tw tod cat s :
  stats_time_weighted tw tod (stats_incr cat s) =
  stats_time_weighted tw tod s + tw cat tod.
Proof.
  induction s as [|[c n] s IH]; cbn [stats_incr stats_time_weighted]; [cbn [INR]; lra|].
  destruct (String.eqb c cat) eqn:E; cbn [stats_time_weighted].
  - apply String.eqb_eq in E; subst c. rewrite S_INR. lra.
  - rewrite IH. lra.
Qed.

Lemma fold_incident_conserved hw c cat :
  cell_conserved hw c -> cell_conserved hw (fold_incident hw c cat).
Proof.
  intros [Ht Hw]; split; simpl.
  - rewrite stats_total_incr. lia.
  - rewrite stats_harm_incr. lra.
Qed.

Lemma cells_update_conserved hw cid dflt f cells :
  cell_conserved hw dflt ->
  (forall c, cell_conserved hw c -> cell_conserved hw (f c)) ->
  Forall (fun kc => cell_conserved hw (snd kc)) cells ->
  Forall (fun kc => cell_conserved hw (snd kc)) (cells_update cid dflt f cells).
Proof.
  intros Hd Hf; induction cells as [|[k c] r IH]; intros Hall; simpl.
  - constructor; [apply Hf, Hd | constructor].
  - inversion Hall as [|? ? Hc Hr]; subst.
    destruct (String.eqb k cid); constructor; simpl in *; auto.
Qed.

Lemma get_recency_weight_nonneg k : 0 <= get_recency_weight k.
Proof.
  unfold get_recency_weight; simpl.
  repeat match goal with |- context [Z.eqb ?a ?b] => destruct (Z.eqb a b) end; lra.
Qed.

Lemma calculate_risk_score_mono w1 w2 :
  w1 <= w2 -> calculate_risk_score w1 <= calculate_risk_score w2.
Proof.
  intros Hle. unfold calculate_risk_score,
    th_very_low, th_low, th_moderate, th_high, th_very_high, Rmin.
  destruct_ifs; lra.
Qed.

(** C2 (code_bug instance): one [violent-crime] event (harm 3.0) in the
    current month, queried with [time_of_day = "night"] (multiplier 2.5):
    the cell's query-time value computed by [calculate_segment_risk] is
    [1 * 2.5 = 2.5], whereas the product with the harm weight,
    [3.0 * 2.5 * 1.0], is 7.5. *)
Theorem segment_risk_time_of_day_omits_harm :
  let cell := mkSafetyCell "8a195da49b7ffff_202510" "8a195da49b7ffff"
                (2025%Z, 10%Z) 1 3.0 [("violent-crime"%string, 1%nat)] in
  calculate_segment_risk doc_time_weights months_between [cell]
    (2025%Z, 10%Z) (Some "night"%string) = 2.5 /\
  doc_harm_weight "violent-crime" * doc_time_weights "violent-crime" "night"
    * get_recency_weight (months_between (2025%Z, 10%Z) (2025%Z, 10%Z)) = 7.5.
Proof.
  intros cell; subst cell.
  split; unfold calculate_segment_risk, cell_weighted_value, py_truthy, get_recency_weight,
    months_between, doc_time_weights, doc_harm_weight; simpl;
    unfold Q2R; simpl; lra.
Qed.

(** C3: hexagon scoring and route scoring share [calculate_risk_score]:
    for every cell, the safety score of the hexagon whose weighted total is
    the cell's value equals the score of a one-segment route whose only
    intersecting cell is that cell. *)
Theorem hexagon_route_same_risk_function
    (time_weights : string -> string -> R)
    (months_ago : year_month -> year_month -> Z)
    (cell : SafetyCell) (current_month : year_month)
    (time_of_day : option string) (idx : nat) (sp ep : point) :
  score_route
    [mkRouteSegment idx sp ep
       (calculate_segment_risk time_weights months_ago [cell] current_month time_of_day) 1]
  = Some (hexagon_safety_score
            (cell_weighted_value time_weights months_ago current_month time_of_day cell)).
Proof.
  unfold score_route, calculate_segment_risk, hexagon_safety_score.
  cbn [fold_left List.length seg_risk_score]. change (INR 1) with 1.
  set (v := cell_weighted_value _ _ _ _ _).
  replace ((0 + (0 + v) / 1) / 1) with v by field. reflexivity.
Qed.

(** C5: the risk function is non-decreasing, and with non-negative category
    tables, folding one more event into a cell never decreases the cell's
    query-time risk, whatever the current month and time of day. *)
Theorem risk_monotone_in_events
    (hw : string -> R) (tw : string -> string -> R)
    (months_ago : year_month -> year_month -> Z)
    (Hhw : forall c, 0 <= hw c) (Htw : forall c t, 0 <= tw c t) :
  (forall w1 w2, 0 <= w1 <= w2 ->
     calculate_risk_score w1 <= calculate_risk_score w2) /\
  (forall cell cat current_month time_of_day,
     calculate_risk_score (cell_weighted_value tw months_ago current_month time_of_day cell)
     <= calculate_risk_score
          (cell_weighted_value tw months_ago current_month time_of_day
             (fold_incident hw cell cat))).
Proof.
  split.
  - intros w1 w2 [_ H]. now apply calculate_risk_score_mono.
  - intros cell cat cm tod. apply calculate_risk_score_mono.
    unfold cell_weighted_value, fold_incident; simpl.
    pose proof (get_recency_weight_nonneg (months_ago (month cell) cm)) as Hr.
    destruct (py_truthy tod) as [t|].
    + rewrite stats_time_weighted_incr.
      apply Rmult_le_compat_r; [exact Hr|]. specialize (Htw cat t). lra.
    + apply Rmult_le_compat_r; [exact Hr|]. specialize (Hhw cat). lra.
Qed.

(** C7: every step of the aggregation fold preserves
    [crime_count_total = Σ stats] and
    [crime_count_weighted = Σ harm_weight(c) · stats[c]] (exactly, hence
    within any tolerance), so every cell the monthly fold produces or
    updates satisfies both. *)
Theorem aggregation_conservation
    (hw : string -> R) (latlng_to_cell : R -> R -> string) :
  (forall c cat, cell_conserved hw c -> cell_conserved hw (fold_incident hw c cat)) /\
  (forall m yyyymm month_crimes cells,
     Forall (fun kc => cell_conserved hw (snd kc)) cells ->
     Forall (fun kc => cell_conserved hw (snd kc))
       (aggregate_month hw latlng_to_cell m yyyymm month_crimes cells)).
Proof.
  split; [apply fold_incident_conserved|].
  intros m yyyymm crimes. unfold aggregate_month.
  induction crimes as [|inc crimes IH]; intros cells Hall; simpl; [exact Hall|].
  apply IH, cells_update_conserved; [split; reflexivity | |exact Hall].
  intros c; apply fold_incident_conserved.
Qed.

(** *** Segmentation lemmas *)

Lemma firstn_app_short {A} (k : nat) (l1 l2 : list A) :
  (k <= List.length l1)%nat -> firstn k (l1 ++ l2) = firstn k l1.
Proof.
  intros Hk. rewrite firstn_app.
  replace (k - List.length l1)%nat with 0%nat by lia. simpl. apply app_nil_r.
Qed.

Lemma below_threshold_single max_len p : below_threshold max_len [p].
Proof. intros k Hk; simpl in Hk; lia. Qed.

Lemma segment_walk_props max_len cur pts :
  below_threshold max_len cur ->
  Forall (emitted_at_threshold max_len) (fst (segment_walk max_len cur pts)) /\
  below_threshold max_len (snd (segment_walk max_len cur pts)).
Proof.
  revert cur; induction pts as [|pt pts IH]; intros cur Hcur; simpl.
  - split; [constructor | exact Hcur].
  - destruct (Rge_dec (line_length (cur ++ [pt])) max_len) as [Hge|Hlt].
    + destruct (segment_walk max_len [pt] pts) as [segs rest] eqn:E; simpl.
      destruct (IH [pt] (below_threshold_single max_len pt)) as [Hs Hr].
      rewrite E in Hs, Hr; simpl in Hs, Hr.
      split; [constructor; [split|] |]; auto.
      intros k Hk. rewrite length_app in Hk; simpl in Hk.
      rewrite firstn_app_short by lia. apply Hcur; lia.
    + apply IH. intros k Hk. rewrite length_app in Hk; simpl in Hk.
      destruct (Nat.eq_dec k (List.length cur + 1)) as [->|Hne].
      * rewrite firstn_all2 by (rewrite length_app; simpl; lia). lra.
      * rewrite firstn_app_short by lia. apply Hcur; lia.
Qed.

Lemma segment_walk_glue max_len cur pts :
  cur ++ pts = glue (fst (segment_walk max_len cur pts))
                    (snd (segment_walk max_len cur pts)).
Proof.
  revert cur; induction pts as [|pt pts IH]; intros cur; simpl.
  - apply app_nil_r.
  - destruct (Rge_dec (line_length (cur ++ [pt])) max_len).
    + specialize (IH [pt]).
      destruct (segment_walk max_len [pt] pts) as [segs rest]; simpl in *.
      rewrite removelast_last, <- IH. reflexivity.
    + rewrite <- IH, <- app_assoc. reflexivity.
Qed.

Lemma planar_dist_vertical x y1 y2 :
  y1 <= y2 -> planar_dist (x, y1) (x, y2) = y2 - y1.
Proof.
  intros H. unfold planar_dist; simpl.
  replace (x - x) with 0 by ring. rewrite Rsqr_0, Rplus_0_l.
  apply sqrt_Rsqr. lra.
Qed.

Lemma PI_gt_3 : 3 < PI.
Proof.
  destruct (PI_ineq 3) as [H _].
  unfold tg_alt, PI_tg in H. simpl in H. lra.
Qed.

Lemma haversine_meridian_from_equator (d : R) :
  0 <= d <= 90 -> haversine_m (0, 0) (0, d) = earth_radius_m * deg_to_rad d.
Proof.
  intros Hd. unfold haversine_m, deg_to_rad; simpl.
  pose proof PI_RGT_0 as Hpi.
  set (t := d * PI / 180).
  replace (0 * PI / 180) with 0 by field.
  replace ((0 - 0) / 2) with 0 by field.
  rewrite sin_0, Rsqr_0, Rmult_0_r, Rplus_0_r.
  rewrite sqrt_Rsqr_abs, Rabs_pos_eq.
  - replace ((t - 0) / 2) with (t / 2) by field.
    rewrite asin_sin; [unfold t; field |].
    unfold t; split; [|]; nra.
  - apply sin_ge_0; unfold t; nra.
Qed.

Lemma line_length_vertical_pair x y1 y2 :
  y1 <= y2 -> line_length [(x, y1); (x, y2)] = y2 - y1.
Proof. intros H. simpl. rewrite planar_dist_vertical by exact H. ring. Qed.

(** C4 (counterexample): the polyline from [(0, 0)] to [(0, 0.00095)] runs
    along a meridian over more than 100 geodesic meters, yet segmentation
    emits no segment at all: its planar length, 0.00095 degrees, is below
    the degree threshold 0.001. *)
Lemma segment_route_not_geodesic :
  100 <= geodesic_length_m [(0, 0); (0, 0.00095)] /\
  segment_route [(0, 0); (0, 0.00095)] default_max_segment_length = [].
Proof.
  split.
  - simpl. rewrite haversine_meridian_from_equator by (unfold Q2R; simpl; lra).
    unfold earth_radius_m, deg_to_rad. pose proof PI_gt_3.
    unfold Q2R; simpl. lra.
  - unfold segment_route, default_max_segment_length; simpl.
    destruct (Rge_dec _ _) as [H|H]; [|reflexivity].
    exfalso. rewrite planar_dist_vertical in H by (unfold Q2R; simpl; lra).
    unfold Q2R in H; simpl in H. lra.
Qed.

(** C9: the two-vertex polyline from [(0, 0)] to [(0, 0.0005)] has distinct
    vertices and a length below the threshold; segmentation returns no
    segment, and [score_route] on the resulting empty segment list reaches
    its division by [len(segments) = 0], whatever each segment would have
    been scored. *)
Theorem score_route_division_by_zero_reachable :
  (0, 0) <> (0, 0.0005) /\
  line_length [(0, 0); (0, 0.0005)] < default_max_segment_length /\
  segment_route [(0, 0); (0, 0.0005)] default_max_segment_length = [] /\
  (forall to_segment : list point -> RouteSegment,
     score_route (map to_segment
                    (segment_route [(0, 0); (0, 0.0005)] default_max_segment_length))
     = None).
Proof.
  assert (Hlen : line_length [(0, 0); (0, 0.0005)] < default_max_segment_length).
  { rewrite line_length_vertical_pair by (unfold Q2R; simpl; lra).
    unfold default_max_segment_length, Q2R; simpl. lra. }
  assert (Hseg : segment_route [(0, 0); (0, 0.0005)] default_max_segment_length = []).
  { unfold segment_route; simpl.
    destruct (Rge_dec _ _) as [H|H]; [|reflexivity].
    exfalso. rewrite planar_dist_vertical in H by (unfold Q2R; simpl; lra).
    unfold default_max_segment_length, Q2R in *; simpl in *. lra. }
  split; [|split; [exact Hlen | split; [exact Hseg|]]].
  - intros E. injection E as E. unfold Q2R in E; simpl in E. lra.
  - intros f. rewrite Hseg. reflexivity.
Qed.

(** C10 (counterexample): on the polyline from [(0, 0)] to [(0, 0.002)] the
    threshold is reached at the final vertex, so the single emitted segment
    is the whole polyline: nothing is left over. *)
Lemma segment_route_covers_when_last_vertex_emits :
  segment_route [(0, 0); (0, 0.002)] default_max_segment_length
  = [[(0, 0); (0, 0.002)]].
Proof.
  unfold segment_route; simpl.
  destruct (Rge_dec _ _) as [H|H]; [reflexivity|].
  exfalso. apply H.
  rewrite planar_dist_vertical by (unfold Q2R; simpl; lra).
  unfold default_max_segment_length, Q2R; simpl. lra.
Qed.

(** C8 (code_bug instance): a route of safety score 72 is classed "low" by
    [getRiskClass] of the route history page, while the specification's
    classes and the heatmap style of the map page (yellow) put it in
    "medium". *)
Theorem getRiskClass_thresholds_differ :
  getRiskClass 72 = "low"%string /\
  risk_class_spec 72 = "medium"%string /\
  heatmap_color 72 = "#ca8a04"%string.
Proof.
  unfold getRiskClass, risk_class_spec, heatmap_color.
  repeat split; destruct_ifs; first [reflexivity | lra].
Qed.

(** Witness of C5: the document's category tables are non-negative, and one
    more burglary in a cell with one violent crime does not lower its
    night-time risk. *)
Lemma risk_monotone_in_events_witness :
  (forall c, 0 <= doc_harm_weight c) /\
  (forall c t, 0 <= doc_time_weights c t) /\
  let cell := mkSafetyCell "8a195da49b7ffff_202510" "8a195da49b7ffff"
                (2025%Z, 10%Z) 1 3.0 [("violent-crime"%string, 1%nat)] in
  calculate_risk_score
    (cell_weighted_value doc_time_weights months_between (2025%Z, 10%Z)
       (Some "night"%string) cell)
  <= calculate_risk_score
       (cell_weighted_value doc_time_weights months_between (2025%Z, 10%Z)
          (Some "night"%string) (fold_incident doc_harm_weight cell "burglary")).
Proof.
  assert (Hhw : forall c, 0 <= doc_harm_weight c).
  { intros c; unfold doc_harm_weight; destruct_ifs; unfold Q2R; simpl; lra. }
  assert (Htw : forall c t, 0 <= doc_time_weights c t).
  { intros c t; unfold doc_time_weights; destruct_ifs; unfold Q2R; simpl; lra. }
  split; [exact Hhw | split; [exact Htw |]].
  intros cell.
  apply (proj2 (risk_monotone_in_events doc_harm_weight doc_time_weights
                  months_between Hhw Htw)).
Defined.

(** ** Further properties of the scoring code *)

(** X1: on every non-negative weighted count the risk score lies in
    [0, 1]. *)
Theorem calculate_risk_score_range (w : R) (Hw : 0 <= w) :
  0 <= calculate_risk_score w <= 1.
Proof.
  unfold calculate_risk_score,
    th_very_low, th_low, th_moderate, th_high, th_very_high, Rmin.
  destruct_ifs; lra.
Qed.

Lemma calculate_risk_score_range_witness :
  0 <= 7.5 /\ 0 <= calculate_risk_score 7.5 <= 1.
Proof.
  split; [unfold Q2R; simpl; lra|].
  apply calculate_risk_score_range. unfold Q2R; simpl; lra.
Defined.

(** X3: for a non-negative weighted total the hexagon safety score lies in
    [0, 100], and a hexagon without recorded crime (total 0, for which
    [calculate_risk_score] returns 0.0 from its first branch) scores 100. *)
Theorem hexagon_safety_score_range (w : R) (Hw : 0 <= w) :
  0 <= hexagon_safety_score w <= 100 /\ hexagon_safety_score 0 = 100.
Proof.
  split.
  - unfold hexagon_safety_score, calculate_risk_score,
      th_very_low, th_low, th_moderate, th_high, th_very_high, Rmin.
    destruct_ifs; unfold Q2R; simpl; lra.
  - unfold hexagon_safety_score, calculate_risk_score.
    destruct (Req_dec_T 0 0) as [_|H]; [|congruence]. unfold Q2R; simpl; lra.
Qed.

Lemma hexagon_safety_score_range_witness :
  0 <= hexagon_safety_score 30 <= 100 /\ hexagon_safety_score 0 = 100.
Proof. apply hexagon_safety_score_range; lra. Defined.

Lemma get_recency_weight_beyond k :
  (k < 0 \/ 12 < k)%Z -> get_recency_weight k = 0.30.
Proof.
  intros Hk. unfold get_recency_weight, RECENCY_WEIGHTS; simpl dict_get.
  repeat (rewrite (proj2 (Z.eqb_neq _ _)) by lia). reflexivity.
Qed.

(** X4: every recency weight lies between 0.30 and 1.00, and a month after
    the current one (negative months-ago) gets the lowest weight 0.30. *)
Theorem get_recency_weight_bounds (k : Z) :
  0.30 <= get_recency_weight k <= 1.00 /\
  ((k < 0)%Z -> get_recency_weight k = 0.30).
Proof.
  split.
  - destruct (Z_lt_le_dec k 0) as [Hk|Hk];
      [rewrite get_recency_weight_beyond by lia; unfold Q2R; simpl; lra|].
    destruct (Z_lt_le_dec 12 k) as [Hk'|Hk'];
      [rewrite get_recency_weight_beyond by lia; unfold Q2R; simpl; lra|].
    assert (k = 0 \/ k = 1 \/ k = 2 \/ k = 3 \/ k = 4 \/ k = 5 \/ k = 6 \/
            k = 7 \/ k = 8 \/ k = 9 \/ k = 10 \/ k = 11 \/ k = 12)%Z as Hc by lia.
    repeat destruct Hc as [->|Hc]; subst;
      unfold get_recency_weight; simpl; unfold Q2R; simpl; lra.
  - intros Hk. apply get_recency_weight_beyond. lia.
Qed.

(** X5: recency weights never increase with the age of the month. *)
Theorem get_recency_weight_antitone (k1 k2 : Z) (H1 : (0 <= k1)%Z) (H12 : (k1 <= k2)%Z) :
  get_recency_weight k2 <= get_recency_weight k1.
Proof.
  destruct (Z_lt_le_dec 12 k2) as [Hk2|Hk2].
  - rewrite (get_recency_weight_beyond k2) by lia.
    destruct (Z_lt_le_dec 12 k1) as [Hk1|Hk1];
      [rewrite get_recency_weight_beyond by lia; lra|].
    assert (k1 = 0 \/ k1 = 1 \/ k1 = 2 \/ k1 = 3 \/ k1 = 4 \/ k1 = 5 \/ k1 = 6 \/
            k1 = 7 \/ k1 = 8 \/ k1 = 9 \/ k1 = 10 \/ k1 = 11 \/ k1 = 12)%Z as Hc by lia.
    repeat destruct Hc as [->|Hc]; subst;
      unfold get_recency_weight; simpl; unfold Q2R; simpl; lra.
  - assert (k1 = 0 \/ k1 = 1 \/ k1 = 2 \/ k1 = 3 \/ k1 = 4 \/ k1 = 5 \/ k1 = 6 \/
            k1 = 7 \/ k1 = 8 \/ k1 = 9 \/ k1 = 10 \/ k1 = 11 \/ k1 = 12)%Z as Hc by lia.
    assert (k2 = 0 \/ k2 = 1 \/ k2 = 2 \/ k2 = 3 \/ k2 = 4 \/ k2 = 5 \/ k2 = 6 \/
            k2 = 7 \/ k2 = 8 \/ k2 = 9 \/ k2 = 10 \/ k2 = 11 \/ k2 = 12)%Z as Hc2 by lia.
    repeat destruct Hc as [->|Hc]; repeat destruct Hc2 as [->|Hc2]; subst;
      try lia; unfold get_recency_weight; simpl; unfold Q2R; simpl; lra.
Qed.

Lemma get_recency_weight_antitone_witness :
  get_recency_weight 4 <= get_recency_weight 3.
Proof. apply get_recency_weight_antitone; lia. Defined.

(** *** Averages *)

Lemma fold_left_plus_shift {A : Type} (f : A -> R) (l : list A) (a : R) :
  fold_left (fun acc x => acc + f x) l a = a + fold_left (fun acc x => acc + f x) l 0.
Proof.
  revert a; induction l as [|x l IH]; intros a; simpl; [lra|].
  rewrite (IH (a + f x)), (IH (0 + f x)). lra.
Qed.

Lemma fold_left_plus_bounds {A : Type} (f : A -> R) (l : list A) (m M : R) :
  Forall (fun x => m <= f x <= M) l ->
  INR (List.length l) * m <= fold_left (fun acc x => acc + f x) l 0
  <= INR (List.length l) * M.
Proof.
  induction l as [|x l IH]; intros Hall; cbn [List.length fold_left]; [simpl; lra|].
  inversion Hall as [|? ? Hx Hl]; subst.
  rewrite fold_left_plus_shift. specialize (IH Hl).
  rewrite S_INR. lra.
Qed.

Lemma mean_bounds {A : Type} (f : A -> R) (l : list A) (m M : R) :
  l <> [] -> Forall (fun x => m <= f x <= M) l ->
  m <= fold_left (fun acc x => acc + f x) l 0 / INR (List.length l) <= M.
Proof.
  intros Hne Hall.
  assert (Hpos : 0 < INR (List.length l)).
  { apply lt_0_INR. destruct l; [congruence | simpl; lia]. }
  pose proof (fold_left_plus_bounds f l m M Hall) as [Hlo Hhi].
  split.
  - apply (Rmult_le_reg_r (INR (List.length l))); [exact Hpos|].
    unfold Rdiv. rewrite Rmult_assoc, Rinv_l by lra. lra.
  - apply (Rmult_le_reg_r (INR (List.length l))); [exact Hpos|].
    unfold Rdiv. rewrite Rmult_assoc, Rinv_l by lra. lra.
Qed.

Lemma fold_left_plus_nonneg {A : Type} (f : A -> R) (l : list A) :
  Forall (fun x => 0 <= f x) l -> 0 <= fold_left (fun acc x => acc + f x) l 0.
Proof.
  induction l as [|x l IH]; intros Hall; cbn [fold_left]; [lra|].
  inversion Hall as [|? ? Hx Hl]; subst.
  rewrite fold_left_plus_shift. specialize (IH Hl). lra.
Qed.

(** X6: the risk of a segment with no cell is 0.0, and it is non-negative
    whenever every cell's weighted value [weighted_count * recency_mult]
    is. *)
Theorem calculate_segment_risk_nonneg
    (time_weights : string -> string -> R)
    (months_ago : year_month -> year_month -> Z)
    (current_month : year_month) (time_of_day : option string)
    (cells : list SafetyCell)
    (Hb : Forall (fun c =>
            0 <= cell_weighted_value time_weights months_ago current_month time_of_day c)
            cells) :
  calculate_segment_risk time_weights months_ago [] current_month time_of_day = 0 /\
  0 <= calculate_segment_risk time_weights months_ago cells current_month time_of_day.
Proof.
  split; [unfold calculate_segment_risk, Q2R; simpl; lra|].
  unfold calculate_segment_risk. destruct cells as [|c cs]; [unfold Q2R; simpl; lra|].
  unfold Rdiv. apply Rmult_le_pos; [apply fold_left_plus_nonneg, Hb|].
  left. apply Rinv_0_lt_compat, lt_0_INR. simpl; lia.
Qed.

Lemma calculate_segment_risk_nonneg_witness :
  let cell := mkSafetyCell "8a195da49b7ffff_202510" "8a195da49b7ffff"
                (2025%Z, 10%Z) 1 3.0 [("violent-crime"%string, 1%nat)] in
  calculate_segment_risk doc_time_weights months_between [] (2025%Z, 10%Z) None = 0 /\
  0 <= calculate_segment_risk doc_time_weights months_between [cell; cell]
         (2025%Z, 10%Z) None.
Proof.
  intros cell.
  apply calculate_segment_risk_nonneg.
  assert (Hv : cell_weighted_value doc_time_weights months_between (2025%Z, 10%Z) None cell = 3).
  { unfold cell_weighted_value, get_recency_weight; simpl. unfold Q2R; simpl. lra. }
  repeat constructor; rewrite Hv; lra.
Defined.

(** X9: when every segment risk is non-negative, a route score that is
    produced lies in [0, 100]. *)
Theorem score_route_range (segments : list RouteSegment) (x : R)
    (Hnn : Forall (fun s => 0 <= seg_risk_score s) segments)
    (Hx : score_route segments = Some x) :
  0 <= x <= 100.
Proof.
  destruct segments as [|s ss]; [discriminate|].
  assert (Havg : 0 <= fold_left (fun acc seg => acc + seg_risk_score seg) (s :: ss) 0
                      / INR (List.length (s :: ss))).
  { unfold Rdiv. apply Rmult_le_pos; [apply fold_left_plus_nonneg, Hnn|].
    left. apply Rinv_0_lt_compat, lt_0_INR. simpl; lia. }
  unfold score_route in Hx.
  set (avg := fold_left _ (s :: ss) 0 / _) in *.
  injection Hx as <-. clearbody avg.
  unfold calculate_risk_score,
    th_very_low, th_low, th_moderate, th_high, th_very_high, Rmin.
  destruct_ifs; unfold Q2R; simpl; lra.
Qed.

Lemma score_route_range_witness :
  0 <= (1.0 - calculate_risk_score 3) * 100 <= 100.
Proof.
  apply (score_route_range [mkRouteSegment 0 (0, 0) (0, 1) 3 1]).
  - repeat constructor. simpl. lra.
  - unfold score_route; cbn [fold_left List.length seg_risk_score].
    change (INR 1) with 1. replace ((0 + 3) / 1) with 3 by field. reflexivity.
Defined.

(** *** Segmentation structure *)

Lemma segment_walk_shape max_len cur pts :
  cur <> [] ->
  Forall (fun s => (2 <= List.length s)%nat) (fst (segment_walk max_len cur pts)) /\
  chained (fst (segment_walk max_len cur pts)) /\
  match fst (segment_walk max_len cur pts) with
  | [] => True
  | s :: _ => hd_error s = hd_error cur
  end.
Proof.
  revert cur; induction pts as [|pt pts IH]; intros cur Hcur; simpl.
  - repeat split; constructor.
  - destruct cur as [|c0 cur']; [congruence|].
    destruct (Rge_dec (line_length ((c0 :: cur') ++ [pt])) max_len).
    + specialize (IH [pt] ltac:(discriminate)).
      destruct (segment_walk max_len [pt] pts) as [segs rest]; simpl in *.
      destruct IH as [Hlen [Hch Hhd]].
      split; [constructor; [simpl; rewrite ?length_app; simpl; lia | exact Hlen]|].
      split; [|reflexivity].
      destruct segs as [|s2 segs]; [exact I|].
      split; [|exact Hch].
      destruct s2 as [|y post]; [discriminate|]. simpl in Hhd. injection Hhd as ->.
      exists (c0 :: cur'), pt, post. split; reflexivity.
    + specialize (IH ((c0 :: cur') ++ [pt]) ltac:(discriminate)).
      destruct IH as [Hlen [Hch Hhd]]. split; [exact Hlen | split; [exact Hch|]].
      destruct (fst (segment_walk max_len ((c0 :: cur') ++ [pt]) pts)); auto.
Qed.

(** X10: every emitted segment has at least two vertices, the first segment
    starts at the route's first vertex, and each segment starts where the
    previous one ends. *)
Theorem segment_route_chained (p0 : point) (pts : list point) (max_len : R) :
  Forall (fun s => (2 <= List.length s)%nat) (segment_route (p0 :: pts) max_len) /\
  chained (segment_route (p0 :: pts) max_len) /\
  (forall s rest, segment_route (p0 :: pts) max_len = s :: rest -> hd_error s = Some p0).
Proof.
  unfold segment_route.
  destruct (segment_walk_shape max_len [p0] pts ltac:(discriminate)) as [H1 [H2 H3]].
  split; [exact H1 | split; [exact H2|]].
  intros s rest E. rewrite E in H3. exact H3.
Qed.

Lemma line_length_split (pre : list point) (x : point) (post : list point) :
  line_length (pre ++ x :: post) = line_length (pre ++ [x]) + line_length (x :: post).
Proof.
  induction pre as [|a pre IH]; [simpl; lra|].
  destruct pre as [|b pre].
  - simpl. lra.
  - change ((a :: b :: pre) ++ x :: post) with (a :: ((b :: pre) ++ x :: post)).
    change ((a :: b :: pre) ++ [x]) with (a :: ((b :: pre) ++ [x])).
    cbn [line_length app] in *. rewrite IH. lra.
Qed.

Lemma line_length_nonneg (pts : list point) : 0 <= line_length pts.
Proof.
  induction pts as [|p pts IH]; simpl; [lra|].
  destruct pts as [|q pts]; [lra|].
  pose proof (sqrt_pos (Rsqr (fst q - fst p) + Rsqr (snd q - snd p))).
  unfold planar_dist. lra.
Qed.

Lemma segment_walk_length max_len cur pts :
  line_length (cur ++ pts) =
  total_segment_length (fst (segment_walk max_len cur pts))
  + line_length (snd (segment_walk max_len cur pts)).
Proof.
  revert cur; induction pts as [|pt pts IH]; intros cur; cbn [segment_walk].
  - rewrite app_nil_r. unfold total_segment_length; simpl. lra.
  - destruct (Rge_dec (line_length (cur ++ [pt])) max_len).
    + specialize (IH [pt]).
      destruct (segment_walk max_len [pt] pts) as [segs rest]; cbn [fst snd app] in *.
      rewrite line_length_split, IH. unfold total_segment_length; simpl. lra.
    + rewrite <- IH, <- app_assoc. reflexivity.
Qed.

Lemma emitted_total_length max_len segs :
  Forall (emitted_at_threshold max_len) segs ->
  INR (List.length segs) * max_len <= total_segment_length segs.
Proof.
  induction 1 as [|s segs [Hge _] _ IH]; [simpl; lra|].
  unfold total_segment_length in *. cbn [List.length fold_right].
  rewrite S_INR. lra.
Qed.


(** *** Monthly aggregation totals and keys *)



(** *** Frontend colour and score helpers *)

(** X14: the colour of a route drawn without segments follows the same
    thresholds as the heatmap: green exactly when the heatmap cell would be
    green (score >= 75), yellow exactly when it would be yellow, red exactly
    when it would be red (score < 50). *)
Theorem route_color_matches_heatmap (s : R) :
  (route_color s = "#22c55e"%string <-> heatmap_color s = "#16a34a"%string) /\
  (route_color s = "#eab308"%string <-> heatmap_color s = "#ca8a04"%string) /\
  (route_color s = "#ef4444"%string <-> heatmap_color s = "#dc2626"%string).
Proof.
  unfold route_color, heatmap_color.
  destruct (Rlt_dec s 50); [destruct (Rge_dec s 75); [lra|destruct (Rge_dec s 50); [lra|]]
           | destruct (Rlt_dec s 75)];
  [| destruct (Rge_dec s 75); [lra| destruct (Rge_dec s 50); [|lra]]
   | destruct (Rge_dec s 75); [|lra]];
  repeat split; intro H; try reflexivity; discriminate H.
Qed.

(** X15: on the route history page, the badge classes of [getRiskColor] are
    built from the class name [getRiskClass] returns for the same score. *)
Theorem getRiskColor_from_class (score : R) :
  getRiskColor score =
  ("bg-risk-" ++ getRiskClass score ++ "/20 text-risk-" ++ getRiskClass score
   ++ " border-risk-" ++ getRiskClass score)%string.
Proof.
  unfold getRiskColor, getRiskClass. destruct_ifs; reflexivity.
Qed.

(** X16: the dashboard's average safety score is 0 for an empty history and
    stays within [0, 100] when every recorded best score does (missing
    scores count as 0). *)
Theorem avgSafetyScore_range (history : list (option R))
    (Hall : Forall (fun o => forall x, o = Some x -> 0 <= x <= 100) history) :
  avgSafetyScore [] = 0 /\ 0 <= avgSafetyScore history <= 100.
Proof.
  split; [reflexivity|].
  unfold avgSafetyScore. destruct history as [|o h]; [lra|].
  apply mean_bounds; [discriminate|].
  eapply Forall_impl; [|exact Hall].
  intros [x|] Hx; simpl; [apply Hx; reflexivity | lra].
Qed.

Lemma avgSafetyScore_range_witness :
  Forall (fun o => forall x, o = Some x -> 0 <= x <= 100) [Some 80; None; Some 55] /\
  0 <= avgSafetyScore [Some 80; None; Some 55] <= 100.
Proof.
  assert (H : Forall (fun o => forall x, o = Some x -> 0 <= x <= 100)
                [Some 80; None; Some 55]).
  { apply Forall_cons; [|apply Forall_cons; [|apply Forall_cons; [|apply Forall_nil]]];
      intros x Hx; inversion Hx; lra. }
  split; [exact H|].
  exact (proj2 (avgSafetyScore_range _ H)).
Defined.

Lemma coordsPerSegment_cover n t :
  (1 <= t)%nat -> (n <= coordsPerSegment n t * t)%nat.
Proof.
  intros Ht. unfold coordsPerSegment.
  pose proof (Nat.div_mod_eq (n + t - 1) t) as Hd.
  pose proof (Nat.mod_upper_bound (n + t - 1) t ltac:(lia)) as Hm.
  nia.
Qed.

(** X17: the per-segment slices of [renderRoutes] cover the route: with at
    least one segment, every coordinate index [j] falls in the slice of a
    segment position [j / c] below the segment count ([c] the coordinates
    per segment), at offset [j - (j / c) * c] of that slice. *)
Theorem segmentCoords_cover {A : Type} (coordinates : list A) (totalSegments j : nat)
    (Ht : (1 <= totalSegments)%nat) (Hj : (j < List.length coordinates)%nat) :
  let c := coordsPerSegment (List.length coordinates) totalSegments in
  (j / c < totalSegments)%nat /\
  nth_error (segmentCoords coordinates totalSegments (j / c)) (j - j / c * c)
  = nth_error coordinates j.
Proof.
  intros c.
  pose proof (coordsPerSegment_cover (List.length coordinates) totalSegments Ht) as Hcov.
  fold c in Hcov.
  assert (Hc : (0 < c)%nat) by nia.
  pose proof (Nat.div_mod_eq j c) as Hd.
  pose proof (Nat.mod_upper_bound j c ltac:(lia)) as Hm.
  set (q := (j / c)%nat) in *. set (r := (j mod c)%nat) in *.
  split; [nia|].
  unfold segmentCoords, js_slice; cbv zeta. fold c. fold q.
  rewrite nth_error_firstn, nth_error_skipn.
  assert (Hlt : (j - q * c < Nat.min ((q + 1) * c) (List.length coordinates) + 1 - q * c)%nat)
    by nia.
  apply Nat.ltb_lt in Hlt. rewrite Hlt.
  f_equal. nia.
Qed.

Lemma segmentCoords_cover_witness :
  (1 <= 4)%nat /\ (3 < List.length [10; 11; 12; 13; 14]%nat)%nat /\
  (let c := coordsPerSegment (List.length [10; 11; 12; 13; 14]%nat) 4 in
   (3 / c < 4)%nat /\
   nth_error (segmentCoords [10; 11; 12; 13; 14]%nat 4 (3 / c)) (3 - 3 / c * c)
   = nth_error [10; 11; 12; 13; 14]%nat 3).
Proof.
  split; [lia|]. split; [simpl; lia|].
  exact (segmentCoords_cover [10; 11; 12; 13; 14]%nat 4 3 ltac:(lia) ltac:(simpl; lia)).
Defined.

(** *** Segmentation is determined by the threshold *)

Lemma segment_walk_chain max_len c0 cur' pts :
  starts_chain c0 (fst (segment_walk max_len (c0 :: cur') pts))
                  (snd (segment_walk max_len (c0 :: cur') pts)).
Proof.
  revert c0 cur'; induction pts as [|pt pts IH]; intros c0 cur'; cbn [segment_walk].
  - reflexivity.
  - destruct (Rge_dec (line_length ((c0 :: cur') ++ [pt])) max_len).
    + specialize (IH pt []).
      destruct (segment_walk max_len [pt] pts) as [segs rest]; cbn [fst snd] in *.
      exists (c0 :: cur'), pt. repeat split; [discriminate | exact IH].
    + exact (IH c0 (cur' ++ [pt])).
Qed.

Lemma starts_chain_glue_hd start segs rest :
  starts_chain start segs rest -> exists t, glue segs rest = start :: t.
Proof.
  destruct segs as [|s segs]; cbn [starts_chain glue].
  - destruct rest as [|r rest]; [discriminate|]. intros H; injection H as ->.
    eexists; reflexivity.
  - intros (pre & x & -> & Hne & Hhd & _).
    destruct pre as [|a pre]; [congruence|]. injection Hhd as ->.
    rewrite removelast_last. eexists; reflexivity.
Qed.

Lemma starts_chain_glue_seg start s segs rest :
  starts_chain start (s :: segs) rest ->
  (2 <= List.length s)%nat /\ exists t, glue (s :: segs) rest = s ++ t.
Proof.
  intros H. destruct H as (pre & x & -> & Hne & _ & Hch).
  split.
  - rewrite length_app. destruct pre; [congruence|]. simpl. lia.
  - destruct (starts_chain_glue_hd _ _ _ Hch) as [t Ht].
    exists t. cbn [glue]. rewrite removelast_last, Ht, <- app_assoc. reflexivity.
Qed.

Lemma app_prefix_firstn {A : Type} (l1 t1 l2 t2 : list A) :
  l1 ++ t1 = l2 ++ t2 -> (List.length l1 <= List.length l2)%nat ->
  firstn (List.length l1) l2 = l1.
Proof.
  intros E Hle.
  assert (H := f_equal (firstn (List.length l1)) E).
  rewrite firstn_app_short in H by lia. rewrite firstn_app_short in H by lia.
  rewrite firstn_all in H. symmetry. exact H.
Qed.

(** A remainder below the threshold cannot contain a whole segment that
    reaches it. *)
Lemma below_threshold_no_segment max_len s t :
  (2 <= List.length s)%nat -> emitted_at_threshold max_len s ->
  below_threshold max_len (s ++ t) -> False.
Proof.
  intros H2 [Hge _] Hb.
  specialize (Hb (List.length s)). rewrite firstn_app_short, firstn_all in Hb by lia.
  rewrite length_app in Hb. specialize (Hb ltac:(lia)). lra.
Qed.

(** A segment cut at the threshold has no shorter prefix that reaches it. *)
Lemma emitted_no_shorter max_len s s' :
  (2 <= List.length s)%nat -> (List.length s < List.length s')%nat ->
  firstn (List.length s) s' = s ->
  line_length s >= max_len -> emitted_at_threshold max_len s' -> False.
Proof.
  intros H2 Hlt Hpre Hge [_ Hmin].
  specialize (Hmin (List.length s) ltac:(lia)). rewrite Hpre in Hmin. lra.
Qed.

Lemma segmentation_unique max_len segs : forall start rest segs' rest',
  starts_chain start segs rest -> starts_chain start segs' rest' ->
  glue segs rest = glue segs' rest' ->
  Forall (emitted_at_threshold max_len) segs ->
  Forall (emitted_at_threshold max_len) segs' ->
  below_threshold max_len rest -> below_threshold max_len rest' ->
  segs = segs' /\ rest = rest'.
Proof.
  induction segs as [|s segs IH]; intros start rest segs' rest' Hc Hc' Hg He He' Hb Hb'.
  - destruct segs' as [|s' segs'].
    + split; [reflexivity | exact Hg].
    + exfalso. inversion He' as [|? ? Hs' _]; subst.
      destruct (starts_chain_glue_seg _ _ _ _ Hc') as [H2 [t Ht]].
      change (glue [] rest) with rest in Hg. rewrite Hg, Ht in Hb. exact (below_threshold_no_segment _ _ _ H2 Hs' Hb).
  - destruct segs' as [|s' segs'].
    + exfalso. inversion He as [|? ? Hs _]; subst.
      destruct (starts_chain_glue_seg _ _ _ _ Hc) as [H2 [t Ht]].
      change (glue [] rest') with rest' in Hg. rewrite <- Hg, Ht in Hb'. exact (below_threshold_no_segment _ _ _ H2 Hs Hb').
    + inversion He as [|? ? Hs Hse]; subst. inversion He' as [|? ? Hs' Hse']; subst.
      destruct (starts_chain_glue_seg _ _ _ _ Hc) as [H2 [t Ht]].
      destruct (starts_chain_glue_seg _ _ _ _ Hc') as [H2' [t' Ht']].
      assert (Heq : s ++ t = s' ++ t') by (rewrite <- Ht, <- Ht'; exact Hg).
      destruct (Nat.lt_total (List.length s) (List.length s')) as [Hlt|[Hlen|Hgt]].
      * exfalso. apply (emitted_no_shorter max_len s s' H2 Hlt);
          [apply (app_prefix_firstn s t s' t' Heq); lia | apply Hs | exact Hs'].
      * assert (Hss : s = s').
        { rewrite <- (app_prefix_firstn s t s' t' Heq) by lia.
          rewrite Hlen. apply firstn_all. }
        subst s'.
        destruct Hc as (pre & x & Es & _ & _ & Hc1).
        destruct Hc' as (pre' & x' & Es' & _ & _ & Hc1').
        rewrite Es in Es'. apply app_inj_tail in Es' as [<- <-].
        cbn [glue] in Hg. rewrite Es, removelast_last in Hg.
        apply app_inv_head in Hg.
        destruct (IH x rest segs' rest' Hc1 Hc1' Hg Hse Hse' Hb Hb') as [-> ->].
        split; reflexivity.
      * exfalso. apply (emitted_no_shorter max_len s' s H2' Hgt);
          [apply (app_prefix_firstn s' t' s t (eq_sym Heq)); lia | apply Hs' | exact Hs].
Qed.

Lemma segment_walk_is_segmentation max_len p0 pts :
  is_segmentation max_len (p0 :: pts) (fst (segment_walk max_len [p0] pts))
                  (snd (segment_walk max_len [p0] pts)).
Proof.
  destruct (segment_walk_props max_len [p0] pts (below_threshold_single max_len p0))
    as [He Hb].
  split; [apply (segment_walk_chain max_len p0 [] pts)|].
  split; [apply (segment_walk_glue max_len [p0] pts)|].
  split; [exact He | exact Hb].
Qed.

(** C4 (amended): segmentation walks the vertices in order and cuts by the
    planar length, in coordinate degrees, of the accumulated sub-polyline:
    the segments, followed by the final [current_segment], chain from the
    first vertex and glue back to the polyline; each segment is emitted
    exactly when that length first reaches [max_segment_length] (it reaches
    it, no shorter accumulated prefix does), and the final
    [current_segment] never reaches it, so the threshold is never passed
    without emitting.  These conditions determine the segments: any other
    cut satisfying them gives the same segments. *)
Theorem segment_route_planar_threshold (p0 : point) (pts : list point) (max_len : R) :
  (exists rest, is_segmentation max_len (p0 :: pts) (segment_route (p0 :: pts) max_len) rest) /\
  (forall segs rest, is_segmentation max_len (p0 :: pts) segs rest ->
     segs = segment_route (p0 :: pts) max_len).
Proof.
  unfold segment_route.
  split; [eexists; apply segment_walk_is_segmentation|].
  intros segs rest (Hc & Hg & He & Hb).
  destruct (segment_walk_is_segmentation max_len p0 pts) as (Hc0 & Hg0 & He0 & Hb0).
  destruct (segmentation_unique max_len segs p0 rest _ _ Hc Hc0
              (eq_trans (eq_sym Hg) Hg0) He He0 Hb Hb0) as [-> _].
  reflexivity.
Qed.

Lemma glue_all_glue segs rest x t :
  segs <> [] -> starts_chain x [] rest -> rest = x :: t ->
  forall start, starts_chain start segs rest -> glue segs rest = glue_all segs ++ t.
Proof.
  intros Hne _ ->. revert Hne.
  induction segs as [|s segs IH]; intros Hne start Hc; [congruence|].
  destruct Hc as (pre & y & -> & _ & _ & Hc).
  destruct segs as [|s2 segs].
  - cbn [starts_chain] in Hc. simpl in Hc. injection Hc as ->.
    cbn [glue glue_all]. rewrite removelast_last, <- app_assoc. reflexivity.
  - cbn [glue glue_all] in *. rewrite (IH ltac:(discriminate) y Hc). rewrite app_assoc.
    reflexivity.
Qed.

Lemma starts_chain_last start segs rest :
  starts_chain start segs rest -> exists x t, rest = x :: t.
Proof.
  revert start; induction segs as [|s segs IH]; intros start Hc.
  - destruct rest as [|x t]; [discriminate|]. eauto.
  - destruct Hc as (_ & x & _ & _ & _ & Hc). eauto.
Qed.

(** C10 (amended): segmentation drops the final [current_segment]: every
    emitted segment reaches the threshold and consecutive segments share
    their endpoints; with no segment the remainder is the whole polyline,
    otherwise the polyline is the glued segments followed by the vertices
    of the remainder after its first one (the last segment's end), and
    every accumulated prefix of the remainder stays below the threshold.
    A route shorter than one threshold gets no segment, and the segments
    cover the whole polyline exactly when the remainder is that single
    shared vertex, i.e. when the final vertex triggers an emission. *)
Theorem segment_route_drops_remainder (p0 : point) (pts : list point) (max_len : R) :
  let segs := segment_route (p0 :: pts) max_len in
  let rest := snd (segment_walk max_len [p0] pts) in
  Forall (emitted_at_threshold max_len) segs /\
  starts_chain p0 segs rest /\
  (segs = [] -> rest = p0 :: pts) /\
  (segs <> [] -> p0 :: pts = glue_all segs ++ tl rest) /\
  below_threshold max_len rest /\
  (line_length (p0 :: pts) < max_len -> segs = []) /\
  (segs <> [] -> (glue_all segs = p0 :: pts <-> tl rest = [])).
Proof.
  intros segs rest.
  destruct (segment_walk_is_segmentation max_len p0 pts) as (Hc & Hg & He & Hb).
  fold rest in Hc, Hg, Hb. unfold segs, segment_route. fold rest.
  set (sg := fst (segment_walk max_len [p0] pts)) in *.
  assert (Hcover : sg <> [] -> p0 :: pts = glue_all sg ++ tl rest).
  { intros Hne. destruct (starts_chain_last _ _ _ Hc) as [x [t Hr]].
    rewrite Hg, Hr. simpl tl.
    apply (glue_all_glue sg (x :: t) x t Hne eq_refl eq_refl p0). rewrite <- Hr. exact Hc. }
  split; [exact He|]. split; [exact Hc|].
  split; [intros E; rewrite Hg, E; reflexivity|].
  split; [exact Hcover|]. split; [exact Hb|]. split.
  - intros Hshort.
    pose proof (segment_walk_length max_len [p0] pts) as Hl. cbn [app] in Hl.
    pose proof (emitted_total_length max_len sg He) as Ht.
    pose proof (line_length_nonneg rest) as Hr.
    fold sg rest in Hl.
    destruct sg as [|s sg']; [reflexivity|exfalso].
    cbn [List.length] in Ht. rewrite S_INR in Ht.
    pose proof (pos_INR (List.length sg')) as Hn.
    pose proof (line_length_nonneg (p0 :: pts)).
    assert (Hm : 0 < max_len) by lra.
    assert (0 <= INR (List.length sg') * max_len) by (apply Rmult_le_pos; lra).
    lra.
  - intros Hne. rewrite (Hcover Hne) at 1. split.
    + intros E. apply (f_equal (@List.length point)) in E.
      rewrite length_app in E. destruct (tl rest); [reflexivity | simpl in E; lia].
    + intros ->. rewrite app_nil_r. reflexivity.
Qed.
